(** * next-js-Template: locale routing, layouts and the localized link

    A shallow embedding of the decision-bearing code of the template:

    - the locale layout ([src/app/[locale]/layout.tsx]):
      [generateStaticParams] and the server component [LocaleLayout];
    - the home page of a locale: the server component [HomePage];
    - the providers wrapper: [Providers];
    - the localized link: [LocalizedLink].

    Server components run in a small state-and-exception monad: the state is
    the request store written by next-intl's [setRequestLocale], the only
    exception is the one raised by [notFound] of next/navigation.  JSX is a
    first-order tree of elements.

    The translation resolver, the locale negotiation of the middleware and
    the path rewriting of the navigation [Link] are not part of the sources;
    they are modelled from the specification in modules of their own. *)

From stdpp Require Import gmap strings list fin_maps.

Open Scope string_scope.

(* ===================================================================== *)
(** ** Definitions                                                        *)
(* ===================================================================== *)

(** *** i18n/routing: the routing configuration *)

Module I18n.

(** The object handed to [defineRouting]. *)
Record Routing : Type := defineRouting {
  locales : list string;
  defaultLocale : string
}.

(** [Array.prototype.includes] on an array of strings: SameValueZero on
    strings is string equality. *)
Fixpoint includes (xs : list string) (x : string) : bool :=
  match xs with
  | [] => false
  | y :: ys => if String.eqb y x then true else includes ys x
  end.

(** Modelled from the spec: [src/i18n/routing.ts] is not among the sources.
    The specification gives the supported set as en (default) and ar, and
    the README lists the same two locales with [defaultLocale: "en"]. *)
Definition routing : Routing :=
  defineRouting ["en"; "ar"] "en".

(** Modelled from the spec: the configuration the README shows for
    "Adding a New Locale" ([locales: ["en", "ar", "fr"]]). *)
Definition routing_with_fr : Routing :=
  defineRouting ["en"; "ar"; "fr"] "en".

(** Modelled from the spec: the configuration of the structure guide
    (supported locales [["en", "ar"]], default locale ["ar"]). *)
Definition routing_guide : Routing :=
  defineRouting ["en"; "ar"] "ar".

(** The is-default attribute of a locale of a configuration. *)
Definition is_default (r : Routing) (l : string) : bool :=
  String.eqb l (defaultLocale r).

End I18n.

(** *** The server runtime: request store and [notFound] *)

Module Next.

(** The request-scoped store of next-intl/server. *)
Record Request : Type := mkRequest {
  requestLocale : option string
}.

Definition emptyRequest : Request := mkRequest None.

(** What a server component can throw: the error of [notFound()]. *)
Inductive Thrown : Type :=
| NEXT_HTTP_ERROR_FALLBACK_404.

Inductive Completion (A : Type) : Type :=
| Returned (a : A)
| Threw (e : Thrown).
Arguments Returned {A} a.
Arguments Threw {A} e.

Definition Server (A : Type) : Type := Request → Completion A * Request.

Definition ret {A} (a : A) : Server A := λ st, (Returned a, st).

Definition bind {A B} (m : Server A) (k : A → Server B) : Server B :=
  λ st, match m st with
        | (Returned a, st') => k a st'
        | (Threw e, st') => (Threw e, st')
        end.

#[global] Instance server_ret : MRet Server := @ret.
#[global] Instance server_bind : MBind Server := λ A B k m, bind m k.

(** [notFound()] of next/navigation: its return type is [never]. *)
Definition notFound {A} : Server A :=
  λ st, (Threw NEXT_HTTP_ERROR_FALLBACK_404, st).

(** [if (c) { m }] for a statement [m]. *)
Definition when (c : bool) (m : Server unit) : Server unit :=
  if c then m else ret tt.

(** [setRequestLocale(locale)] of next-intl/server. *)
Definition setRequestLocale (locale : string) : Server unit :=
  λ _, (Returned tt, mkRequest (Some locale)).

(** The part of next-intl that reads the message catalogue.  It is a
    library outside the repository: the messages of a request and the
    translator of a namespace are functions of the request locale. *)
Class NextIntl : Type := {
  Messages : Type;
  messagesOf : option string → Messages;
  translatorOf : option string → string → string → string
}.

(** [getMessages()] of next-intl/server. *)
Definition getMessages `{NextIntl} : Server Messages :=
  λ st, (Returned (messagesOf (requestLocale st)), st).

(** [getTranslations(namespace)] of next-intl/server. *)
Definition getTranslations `{NextIntl} (namespace : string)
  : Server (string → string) :=
  λ st, (Returned (translatorOf (requestLocale st) namespace), st).

#[local] Set Warnings "-register-all".

(** JSX elements: host elements with their attributes, the provider of
    next-intl with its [messages] prop, and elements of the repository's
    own components. *)
Inductive ReactNode `{NextIntl} : Type :=
| Text (s : string)
| Host (tag : string) (attrs : list (string * string))
       (children : list ReactNode)
| NextIntlClientProvider (messages : Messages) (children : list ReactNode)
| Component (name : string) (children : list ReactNode).

(** The value of an attribute of a host element. *)
Fixpoint assoc (k : string) (kvs : list (string * string)) : option string :=
  match kvs with
  | [] => None
  | (k', v) :: rest => if String.eqb k' k then Some v else assoc k rest
  end.

Definition attr `{NextIntl} (k : string) (n : ReactNode) : option string :=
  match n with
  | Host _ attrs _ => assoc k attrs
  | _ => None
  end.

Definition tagOf `{NextIntl} (n : ReactNode) : option string :=
  match n with
  | Host tag _ _ => Some tag
  | _ => None
  end.

End Next.

(** *** The providers wrapper *)

Module ProvidersModule.
Import Next.

(** [Providers({ children })] is [<QueryProvider>{children}</QueryProvider>]. *)
Definition Providers `{NextIntl} (children : ReactNode) : ReactNode :=
  Component "QueryProvider" [children].

End ProvidersModule.

(** *** The locale layout and the home page *)

Module Layout.
Import I18n Next.

(** [{ locale }]: the params object of a [[locale]] route. *)
Record Params : Type := mkParams { locale : string }.

(** [routing.locales.map((locale) => ({ locale }))]. *)
Definition generateStaticParams (routing : Routing) : list Params :=
  map (λ locale, mkParams locale) (locales routing).

(** [locale === "ar" ? "rtl" : "ltr"]. *)
Definition dirOf (locale : string) : string :=
  if String.eqb locale "ar" then "rtl" else "ltr".

(** The default export of layout.tsx.  [params] is the value the promise
    resolves to; the steps are those of the source, in its order. *)
Definition LocaleLayout `{NextIntl} (routing : Routing)
    (children : ReactNode) (params : Params) : Server ReactNode :=
  let locale := locale params in
  when (negb (includes (locales routing) locale)) notFound ;;
  setRequestLocale locale ;;
  messages ← getMessages ;
  let dir := dirOf locale in
  mret (Host "html" [("lang", locale); ("dir", dir); ("className", "h-full")]
        [Host "body" [("className", "h-full w-full")]
          [NextIntlClientProvider messages
            [Component "Providers" [children]]]]).

(** The home page, the default export of the page module. *)
Definition HomePage `{NextIntl} (params : Params) : Server ReactNode :=
  let locale := locale params in
  setRequestLocale locale ;;
  t ← getTranslations "hero" ;
  mret (Host "main"
        [("className",
          "w-full min-h-screen flex flex-col gap-3 items-center justify-center")]
        [Host "h1" [("className", "text-3xl font-semibold")] [Text (t "title")];
         Host "p" [] [Text (t "subtitle")]]).

End Layout.

(** *** The localized link *)

Module LocalizedLinkModule.

(** The component an element refers to: the [Link] exported by
    [@/i18n/navigation]. *)
Inductive ComponentType : Type :=
| NavigationLink.

(** A JSX element whose type is a component: the component and the props
    object it will be called with.  [V] is the type of prop values. *)
Record Element (V : Type) : Type := jsx {
  type : ComponentType;
  props : gmap string V
}.
Arguments jsx {V} type props.
Arguments type {V} e.
Arguments props {V} e.

(** [{...props}]: a fresh object that receives every own property of
    [props], one assignment per property. *)
Definition spread {V} (props : gmap string V) : gmap string V :=
  map_fold (λ k v acc, <[k:=v]> acc) ∅ props.

(** [LocalizedLink(props)] is [<Link {...props} />]. *)
Definition LocalizedLink {V} (props : gmap string V) : Element V :=
  jsx NavigationLink (spread props).

(** Rendering an element calls its component with the element's props;
    [Link] is the implementation behind [NavigationLink]. *)
Definition render {V R} (Link : gmap string V → R) (e : Element V) : R :=
  match type e with
  | NavigationLink => Link (props e)
  end.

End LocalizedLinkModule.

(** *** The translation resolver *)

Module Resolver.
Import I18n.

(** Modelled from the spec: the message bundles and the resolver of section
    4.2 are not among the sources (the lookups are done by next-intl, set up
    in [src/i18n/request.ts]).  A bundle maps dot-delimited key paths to
    translated strings; there is one bundle per locale. *)
Record Catalog : Type := mkCatalog {
  config : Routing;
  bundles : gmap string (gmap string string)
}.

(** Modelled from the spec: the bundle of a locale; a locale without a
    bundle file has no entries. *)
Definition bundleOf (c : Catalog) (L : string) : gmap string string :=
  default ∅ (bundles c !! L).

(** Modelled from the spec: [resolve(locale, keyPath)] of section 4.2, which
    is missing from the sources: exact match in the locale's bundle, then
    exact match in the default locale's bundle, then the key path itself. *)
Definition resolve (c : Catalog) (L keyPath : string) : string :=
  match bundleOf c L !! keyPath with
  | Some v => v
  | None =>
      match bundleOf c (defaultLocale (config c)) !! keyPath with
      | Some v => v
      | None => keyPath
      end
  end.

(** Modelled from the spec: the concrete scenario of section 8, supported
    locales en (default) and ar, bundle en with the one entry
    ["hero.title"], bundle ar empty. *)
Definition scenario : Catalog :=
  mkCatalog routing
    {[ "en" := {[ "hero.title" := "Welcome" ]};
       "ar" := ∅ ]}.

(** Modelled from the spec: next-intl driven by a catalogue; the translator
    of a namespace addresses the key path [namespace.key], and a request
    without a locale uses the default locale. *)
Definition intlOf (c : Catalog) : Next.NextIntl := {|
  Next.Messages := gmap string string;
  Next.messagesOf := λ l, bundleOf c (default (defaultLocale (config c)) l);
  Next.translatorOf := λ l namespace key,
    resolve c (default (defaultLocale (config c)) l)
              (namespace +:+ "." +:+ key)
|}.

End Resolver.

(** *** The locale router *)

Module Router.
Import I18n.

(** Modelled from the spec: the candidate signals of section 4.1; the
    middleware that reads them ([@repo/middleware-utils], [src/middleware.ts])
    is not among the sources.  [urlSegment] is the first segment of the
    request path, [cookie] the stored preference, [acceptLanguage] the
    language tags the client advertises, most preferred first. *)
Record Signals : Type := mkSignals {
  urlSegment : option string;
  cookie : option string;
  acceptLanguage : list string
}.

(** Modelled from the spec: header negotiation, a best match of the
    client's tags against the supported set.  The specification does not
    fix the matching rule, so the router takes it as an argument: from the
    supported locales and the client's tags to a locale, if any matches. *)
Definition Matcher : Type := list string → list string → option string.

(** Modelled from the spec: the explicit URL segment, a signal when it names
    a supported locale (the guide's [/en/page]). *)
Definition fromUrl (r : Routing) (s : Signals) : option string :=
  u ← urlSegment s; if includes (locales r) u then Some u else None.

(** Modelled from the spec: the stored preference, when it names a
    supported locale. *)
Definition fromCookie (r : Routing) (s : Signals) : option string :=
  c ← cookie s; if includes (locales r) c then Some c else None.

(** Modelled from the spec: the locale detection of the router, missing from
    the sources, in the priority order the guide documents and section 4.1
    fixes: URL segment, cookie, header negotiation, default.  The router
    always answers with a locale; rejecting a request whose segment is not
    a supported locale is left to the caller, which is what [LocaleLayout]
    does with the segment it receives. *)
Definition resolveLocale (bestMatch : Matcher) (r : Routing) (s : Signals)
  : string :=
  match fromUrl r s with
  | Some u => u
  | None =>
      match fromCookie r s with
      | Some c => c
      | None =>
          match bestMatch (locales r) (acceptLanguage s) with
          | Some h => h
          | None => defaultLocale r
          end
      end
  end.

(** Modelled from the spec: the primary subtag of a language tag ([ar] for
    [ar-EG]). *)
Fixpoint primary (tag : string) : string :=
  match tag with
  | EmptyString => EmptyString
  | String c rest =>
      if String.eqb (String c EmptyString) "-" then EmptyString
      else String c (primary rest)
  end.

(** Modelled from the spec: the match of one client tag: the tag itself
    when it is supported, otherwise its primary subtag when that is. *)
Definition matchTag (supported : list string) (tag : string) : option string :=
  if includes supported tag then Some tag
  else if includes supported (primary tag) then Some (primary tag)
  else None.

(** Modelled from the spec: one best-match rule for the router: the match of
    the client's most preferred tag that has one. *)
Fixpoint lookupMatch (supported tags : list string) : option string :=
  match tags with
  | [] => None
  | t :: ts =>
      match matchTag supported t with
      | Some l => Some l
      | None => lookupMatch supported ts
      end
  end.

End Router.

(** *** Locale-aware paths *)

Module Navigation.

(** Modelled from the spec: the locale segment of a route. *)
Definition segment (L : string) : string := "/" +:+ L.

(** Modelled from the spec: the path's leading segment is the locale [L]. *)
Definition hasLocalePrefix (L path : string) : bool :=
  String.eqb path (segment L) || String.prefix (segment L +:+ "/") path.

(** Modelled from the spec: the leading segment occurs twice. *)
Definition doubled (L path : string) : Prop :=
  ∃ rest, path = segment L +:+ rest ∧ hasLocalePrefix L rest = true.

(** Modelled from the spec: link generation of section 4.3, which the
    sources leave to the [Link] of next-intl.  The final path has the target
    locale as leading segment; a path that already has it is kept, and a
    malformed path (one that is not rooted at ["/"]) passes through
    unchanged. *)
Definition localize (L path : string) : string :=
  if negb (String.prefix "/" path) then path
  else if hasLocalePrefix L path then path
  else segment L +:+ path.

(** Modelled from the spec: the [Link] of [@/i18n/navigation] as far as the
    final path goes: the [href] prop rewritten for the [locale] prop, which
    defaults to the active locale. *)
Definition Link (active : string) (props : gmap string string)
  : option string :=
  path ← props !! "href";
  Some (localize (default active (props !! "locale")) path).

End Navigation.

(** *** The API client of the structure guide *)

Module AxiosInstance.

(** The request configuration of axios, as far as the guide's client
    touches it: the base URL, the timeout and the headers object. *)
Record RequestConfig : Type := mkConfig {
  baseURL : option string;
  timeout : N;
  headers : gmap string string
}.

(** Truthiness of a value of type [string | undefined]: [undefined] and
    the empty string are falsy. *)
Definition truthy (v : option string) : bool :=
  match v with
  | Some s => negb (String.eqb s "")
  | None => false
  end.

(** The request interceptor.  [Cookies.get("token")] reads the cookie jar;
    the assignment to [config.headers.Authorization] writes the property of
    the headers object. *)
Definition requestInterceptor (cookies : gmap string string)
    (config : RequestConfig) : RequestConfig :=
  let token := cookies !! "token" in
  if truthy token then
    match token with
    | Some token =>
        mkConfig (baseURL config) (timeout config)
          (<["Authorization" := "Bearer " +:+ token]> (headers config))
    | None => config
    end
  else config.

End AxiosInstance.

(** *** The hero of the shared UI package and its use in the app *)

Module Ui.

#[local] Set Warnings "-register-all".

(** What a JSX child expression can evaluate to in these components:
    [undefined], a string, or an element with its class and children. *)
Inductive Jsx : Type :=
| JsUndefined
| JsString (s : string)
| JsElement (tag : string) (className : string) (children : list Jsx).

Definition classOf (n : Jsx) : option string :=
  match n with
  | JsElement _ c _ => Some c
  | _ => None
  end.

Definition childrenOf (n : Jsx) : list Jsx :=
  match n with
  | JsElement _ _ kids => kids
  | _ => []
  end.

(** [a || b] for [a : string | undefined]. *)
Definition or_else (a : option string) (b : string) : string :=
  match a with
  | Some s => if String.eqb s "" then b else s
  | None => b
  end.

(** [Hero({ title, subtitle, className })] of packages/ui/src/hero.tsx.
    The second child is [subtitle && <p ...>{subtitle}</p>]: [undefined]
    for a missing subtitle, the empty string for an empty one. *)
Definition Hero (title : string) (subtitle className : option string) : Jsx :=
  JsElement "div" ("ui-hero " +:+ or_else className "")
    [JsElement "h1" "ui-text-4xl ui-font-bold" [JsString title];
     match subtitle with
     | None => JsUndefined
     | Some s =>
         if String.eqb s "" then JsString ""
         else JsElement "p" "ui-text-xl" [JsString s]
     end].

(** [HomeHero()] of the app: the hero with the two translated strings and
    no class.  [t] is the function [useTranslations()] returns. *)
Definition HomeHero (t : string → string) : Jsx :=
  Hero (t "hero.title") (Some (t "hero.subtitle")) None.

End Ui.

(* ===================================================================== *)
(** ** Theorems                                                           *)
(* ===================================================================== *)

(** *** Membership in the supported set *)

Module I18nFacts.
Import I18n.

Lemma includes_true (xs : list string) (x : string) :
  includes xs x = true ↔ x ∈ xs.
Proof.
  induction xs as [|y ys IH]; simpl.
  - split; [discriminate | intros H; inversion H].
  - destruct (String.eqb_spec y x) as [->|Hne].
    + split; [intros _; left | reflexivity].
    + rewrite IH. split; [intros H; now right|].
      intros H. inversion H; subst; [congruence | assumption].
Qed.

Lemma includes_false (xs : list string) (x : string) :
  includes xs x = false ↔ x ∉ xs.
Proof.
  rewrite <- includes_true. destruct (includes xs x); split; congruence.
Qed.

Example includes_ar : includes (locales routing) "ar" = true.
Proof. reflexivity. Qed.

Example includes_fr : includes (locales routing) "fr" = false.
Proof. reflexivity. Qed.

End I18nFacts.

(** *** The server monad *)

Module NextFacts.
Import Next.

Lemma bind_returned {A B} (m : Server A) (k : A → Server B) st a st' :
  m st = (Returned a, st') → (m ≫= k) st = k a st'.
Proof. intros E. unfold mbind, server_bind, bind. now rewrite E. Qed.

Lemma bind_threw {A B} (m : Server A) (k : A → Server B) st e st' :
  m st = (Threw e, st') → (m ≫= k) st = (Threw e, st').
Proof. intros E. unfold mbind, server_bind, bind. now rewrite E. Qed.

Lemma when_true_notFound st :
  when true notFound st = (Threw NEXT_HTTP_ERROR_FALLBACK_404, st).
Proof. reflexivity. Qed.

Lemma when_false (m : Server unit) st : when false m st = (Returned tt, st).
Proof. reflexivity. Qed.

End NextFacts.

(** *** The locale layout and the home page *)

Module LayoutFacts.
Import I18n Next Layout I18nFacts NextFacts.

(** The tree [LocaleLayout] returns for a locale that passed the check. *)
Lemma LocaleLayout_supported `{NextIntl} (routing : Routing)
    (children : ReactNode) (l : string) (st : Request) :
  includes (locales routing) l = true →
  LocaleLayout routing children (mkParams l) st =
    (Returned
       (Host "html" [("lang", l); ("dir", dirOf l); ("className", "h-full")]
          [Host "body" [("className", "h-full w-full")]
             [NextIntlClientProvider (messagesOf (Some l))
                [Component "Providers" [children]]]]),
     mkRequest (Some l)).
Proof.
  intros Hin. unfold LocaleLayout; simpl.
  rewrite (bind_returned _ _ st tt st) by (rewrite Hin; apply when_false).
  reflexivity.
Qed.

Lemma LocaleLayout_unsupported `{NextIntl} (routing : Routing)
    (children : ReactNode) (l : string) (st : Request) :
  includes (locales routing) l = false →
  LocaleLayout routing children (mkParams l) st =
    (Threw NEXT_HTTP_ERROR_FALLBACK_404, st).
Proof.
  intros Hout. unfold LocaleLayout; simpl.
  apply bind_threw. rewrite Hout. apply when_true_notFound.
Qed.

Lemma dirOf_rtl (l : string) : dirOf l = "rtl" ↔ l = "ar".
Proof.
  unfold dirOf. destruct (String.eqb_spec l "ar") as [->|Hne].
  - split; reflexivity.
  - split; [discriminate | intros ->; congruence].
Qed.

Lemma dirOf_ltr (l : string) : l ≠ "ar" → dirOf l = "ltr".
Proof.
  intros Hne. unfold dirOf. now destruct (String.eqb_spec l "ar").
Qed.

(** C1: for every locale segment that is not a member of [routing.locales],
    [LocaleLayout] ends with the error thrown by [notFound()]: the request
    locale is never set, nothing is rendered, and so no page is produced
    for the default locale in its place. *)
Theorem LocaleLayout_rejects_unsupported `{NextIntl} (routing : Routing)
    (children : ReactNode) (l : string) (st : Request) :
  l ∉ locales routing →
  LocaleLayout routing children (mkParams l) st =
    (Threw NEXT_HTTP_ERROR_FALLBACK_404, st)
  ∧ ∀ node st', LocaleLayout routing children (mkParams l) st ≠
                (Returned node, st').
Proof.
  intros Hout. apply includes_false in Hout.
  rewrite (LocaleLayout_unsupported routing children l st Hout).
  split; [reflexivity | intros node st' E; discriminate E].
Qed.

(** C9: for every member of [routing.locales] the membership check passes:
    [LocaleLayout] sets the request locale and returns a tree, and does not
    throw the not-found error. *)
Theorem LocaleLayout_renders_supported `{NextIntl} (routing : Routing)
    (children : ReactNode) (l : string) (st : Request) :
  l ∈ locales routing →
  (∃ node, LocaleLayout routing children (mkParams l) st =
           (Returned node, mkRequest (Some l)))
  ∧ ∀ e st', LocaleLayout routing children (mkParams l) st ≠ (Threw e, st').
Proof.
  intros Hin. apply includes_true in Hin.
  rewrite (LocaleLayout_supported routing children l st Hin).
  split; [eexists; reflexivity | intros e st' E; discriminate E].
Qed.

(** C6: for every supported locale the root element [LocaleLayout] returns
    is [html] with [lang] equal to the locale and [dir] equal to ["rtl"]
    exactly when the locale is ["ar"], ["ltr"] otherwise; and the supported
    set has a right-to-left member. *)
Theorem LocaleLayout_lang_dir :
  (∀ (intl : NextIntl) (routing : Routing) (children : ReactNode)
     (l : string) (st : Request),
     l ∈ locales routing →
     ∃ html st',
       LocaleLayout routing children (mkParams l) st = (Returned html, st')
       ∧ tagOf html = Some "html"
       ∧ attr "lang" html = Some l
       ∧ (attr "dir" html = Some "rtl" ↔ l = "ar")
       ∧ (l ≠ "ar" → attr "dir" html = Some "ltr"))
  ∧ ∃ l, l ∈ locales I18n.routing ∧ dirOf l = "rtl".
Proof.
  split.
  - intros intl routing children l st Hin. apply includes_true in Hin.
    eexists _, _. split; [apply LocaleLayout_supported, Hin|].
    simpl. repeat split.
    + intros [= E]. now apply dirOf_rtl.
    + intros ->. reflexivity.
    + intros Hne. now rewrite dirOf_ltr.
  - exists "ar". split; [apply includes_true|]; reflexivity.
Qed.

(** C8: [generateStaticParams] maps every element of [routing.locales] to
    its params object, in order: one object per supported locale, and the
    locales of the generated routes are exactly the supported ones. *)
Theorem generateStaticParams_locales (routing : Routing) :
  generateStaticParams routing = map mkParams (locales routing)
  ∧ length (generateStaticParams routing) = length (locales routing)
  ∧ (∀ i, generateStaticParams routing !! i
          = mkParams <$> locales routing !! i)
  ∧ map locale (generateStaticParams routing) = locales routing
  ∧ ∀ l, mkParams l ∈ generateStaticParams routing ↔ l ∈ locales routing.
Proof.
  unfold generateStaticParams. repeat split.
  - apply length_map.
  - intros i. apply list_lookup_fmap.
  - rewrite map_map. simpl. apply map_id.
  - intros Hin. apply list_elem_of_fmap in Hin as (l' & [= ->] & Hl'). exact Hl'.
  - intros Hin. apply list_elem_of_fmap. now exists l.
Qed.

(** C10: [HomePage] checks nothing: for every locale string it sets the
    request locale to it and returns its tree, and never throws the
    not-found error; on a segment that [LocaleLayout] rejects, [HomePage]
    still renders. *)
Theorem HomePage_no_validation `{NextIntl} (l : string) (st : Request) :
  HomePage (mkParams l) st =
    (Returned
       (Host "main"
          [("className",
            "w-full min-h-screen flex flex-col gap-3 items-center justify-center")]
          [Host "h1" [("className", "text-3xl font-semibold")]
             [Text (translatorOf (Some l) "hero" "title")];
           Host "p" [] [Text (translatorOf (Some l) "hero" "subtitle")]]),
     mkRequest (Some l))
  ∧ (∀ e st', HomePage (mkParams l) st ≠ (Threw e, st'))
  ∧ (LocaleLayout I18n.routing (Text "") (mkParams "fr") st =
       (Threw NEXT_HTTP_ERROR_FALLBACK_404, st)
     ∧ ∃ node, HomePage (mkParams "fr") st =
               (Returned node, mkRequest (Some "fr"))).
Proof.
  split; [reflexivity|]. split; [intros e st' E; discriminate E|].
  split; [reflexivity | eexists; reflexivity].
Qed.

(** The rejected segment of the scenario [/fr/about]. *)
Lemma LocaleLayout_rejects_fr :
  ("fr" ∉ locales I18n.routing)
  ∧ LocaleLayout (H := Resolver.intlOf Resolver.scenario) I18n.routing
      (Text "about") (mkParams "fr") emptyRequest =
      (Threw NEXT_HTTP_ERROR_FALLBACK_404, emptyRequest)
  ∧ ∀ node st',
      LocaleLayout (H := Resolver.intlOf Resolver.scenario) I18n.routing
        (Text "about") (mkParams "fr") emptyRequest ≠ (Returned node, st').
Proof.
  assert (Hfr : "fr" ∉ locales I18n.routing)
    by (apply includes_false; reflexivity).
  split; [exact Hfr|].
  exact (LocaleLayout_rejects_unsupported (H := Resolver.intlOf Resolver.scenario)
           I18n.routing (Text "about") "fr" emptyRequest Hfr).
Defined.

(** The Arabic layout of the template is rendered. *)
Lemma LocaleLayout_renders_ar :
  ("ar" ∈ locales I18n.routing)
  ∧ (∃ node,
       LocaleLayout (H := Resolver.intlOf Resolver.scenario) I18n.routing
         (Text "home") (mkParams "ar") emptyRequest =
         (Returned node, mkRequest (Some "ar")))
  ∧ ∀ e st',
      LocaleLayout (H := Resolver.intlOf Resolver.scenario) I18n.routing
        (Text "home") (mkParams "ar") emptyRequest ≠ (Threw e, st').
Proof.
  assert (Har : "ar" ∈ locales I18n.routing)
    by (apply includes_true; reflexivity).
  split; [exact Har|].
  exact (LocaleLayout_renders_supported (H := Resolver.intlOf Resolver.scenario)
           I18n.routing (Text "home") "ar" emptyRequest Har).
Defined.

(** The Arabic document is right-to-left, the English one left-to-right. *)
Lemma LocaleLayout_lang_dir_ar_en :
  (∃ html st',
     LocaleLayout (H := Resolver.intlOf Resolver.scenario) I18n.routing
       (Text "home") (mkParams "ar") emptyRequest = (Returned html, st')
     ∧ attr "lang" html = Some "ar" ∧ attr "dir" html = Some "rtl")
  ∧ (∃ html st',
     LocaleLayout (H := Resolver.intlOf Resolver.scenario) I18n.routing
       (Text "home") (mkParams "en") emptyRequest = (Returned html, st')
     ∧ attr "lang" html = Some "en" ∧ attr "dir" html = Some "ltr").
Proof.
  assert (Har : "ar" ∈ locales I18n.routing)
    by (apply includes_true; reflexivity).
  assert (Hen : "en" ∈ locales I18n.routing)
    by (apply includes_true; reflexivity).
  split.
  - destruct (proj1 LocaleLayout_lang_dir (Resolver.intlOf Resolver.scenario)
                I18n.routing (Text "home") "ar" emptyRequest Har)
      as (html & st' & E & _ & Hlang & Hdir & _).
    exists html, st'. split; [exact E|]. split; [exact Hlang|].
    apply Hdir. reflexivity.
  - destruct (proj1 LocaleLayout_lang_dir (Resolver.intlOf Resolver.scenario)
                I18n.routing (Text "home") "en" emptyRequest Hen)
      as (html & st' & E & _ & Hlang & _ & Hdir).
    exists html, st'. split; [exact E|]. split; [exact Hlang|].
    apply Hdir. discriminate.
Defined.

End LayoutFacts.

(** *** The localized link *)

Module LocalizedLinkFacts.
Import LocalizedLinkModule.

(** Copying the properties one by one rebuilds the object. *)
Lemma spread_id {V} (p : gmap string V) : spread p = p.
Proof.
  unfold spread.
  apply (map_fold_weak_ind (λ (r : gmap string V) (m : gmap string V), r = m)).
  - reflexivity.
  - intros k v m r _ ->. reflexivity.
Qed.

Lemma LocalizedLink_element {V} (p : gmap string V) :
  LocalizedLink p = jsx NavigationLink p.
Proof. unfold LocalizedLink. now rewrite spread_id. Qed.

Lemma render_LocalizedLink {V R : Type} (Link : gmap string V → R)
    (p : gmap string V) :
  render Link (LocalizedLink p) = Link p.
Proof. now rewrite LocalizedLink_element. Qed.

(** C5: [LocalizedLink] is a pass-through.  The element it returns is the
    navigation [Link] with the props it was given, every property
    unchanged ([href] included, whatever its shape), so rendering it is
    calling [Link] on the same props; the component is a total function of
    its props and touches no state. *)
Theorem LocalizedLink_pass_through {V R : Type} (Link : gmap string V → R)
    (p : gmap string V) :
  LocalizedLink p = jsx NavigationLink p
  ∧ render Link (LocalizedLink p) = Link p
  ∧ (∀ k, props (LocalizedLink p) !! k = p !! k).
Proof.
  split; [apply LocalizedLink_element|].
  split; [apply render_LocalizedLink|].
  intros k. now rewrite LocalizedLink_element.
Qed.

Example LocalizedLink_malformed_href :
  props (LocalizedLink ({[ "href" := "no leading slash" ]} : gmap string string))
    !! "href" = Some "no leading slash".
Proof. now rewrite LocalizedLink_element. Qed.

End LocalizedLinkFacts.

(** *** The default locale of a configuration *)

Module RoutingFacts.
Import I18n I18nFacts.

Lemma is_default_true (r : Routing) (l : string) :
  is_default r l = true ↔ l = defaultLocale r.
Proof. unfold is_default. apply String.eqb_eq. Qed.

(** A configuration whose default is one of its locales has one default
    member and no other. *)
Lemma default_unique (r : Routing) :
  defaultLocale r ∈ locales r →
  exists! l, l ∈ locales r ∧ is_default r l = true.
Proof.
  intros Hin. exists (defaultLocale r). split.
  - split; [exact Hin | now apply is_default_true].
  - intros l [_ Hl]. symmetry. now apply is_default_true.
Qed.

(** C7: in each declared configuration (the template's, the README's with a
    third locale, the guide's with Arabic as default) there is one and only
    one supported locale whose is-default attribute holds. *)
Theorem exactly_one_default :
  (exists! l, l ∈ locales routing ∧ is_default routing l = true)
  ∧ (exists! l, l ∈ locales routing_with_fr ∧ is_default routing_with_fr l = true)
  ∧ (exists! l, l ∈ locales routing_guide ∧ is_default routing_guide l = true)
  ∧ List.filter (is_default routing) (locales routing) = ["en"]
  ∧ List.filter (is_default routing_with_fr) (locales routing_with_fr) = ["en"]
  ∧ List.filter (is_default routing_guide) (locales routing_guide) = ["ar"].
Proof.
  split; [|split; [|split]].
  - apply default_unique, includes_true. reflexivity.
  - apply default_unique, includes_true. reflexivity.
  - apply default_unique, includes_true. reflexivity.
  - repeat split.
Qed.

End RoutingFacts.

(** *** The translation resolver *)

Module ResolverFacts.
Import I18n Resolver.

(** C2: the resolution order of [resolve], for every locale and key path:
    the entry of the locale's bundle when there is one, otherwise the entry
    of the default locale's bundle, otherwise the key path itself; [resolve]
    is a total function to strings, so no lookup fails.  In the scenario
    (en default with ["hero.title"], ar empty) the Arabic lookups give
    ["Welcome"] and ["nav.contact"]. *)
Theorem resolve_order (c : Catalog) (L k : string) :
  (∀ v, bundleOf c L !! k = Some v → resolve c L k = v)
  ∧ (∀ v, bundleOf c L !! k = None →
          bundleOf c (defaultLocale (config c)) !! k = Some v →
          resolve c L k = v)
  ∧ (bundleOf c L !! k = None →
     bundleOf c (defaultLocale (config c)) !! k = None →
     resolve c L k = k)
  ∧ resolve scenario "ar" "hero.title" = "Welcome"
  ∧ resolve scenario "ar" "nav.contact" = "nav.contact".
Proof.
  unfold resolve. repeat split.
  - intros v ->. reflexivity.
  - intros v -> ->. reflexivity.
  - intros -> ->. reflexivity.
Qed.

(** The three steps of the order, each taken in the scenario. *)
Lemma resolve_order_scenario :
  resolve scenario "en" "hero.title" = "Welcome"
  ∧ resolve scenario "ar" "hero.title" = "Welcome"
  ∧ resolve scenario "ar" "nav.contact" = "nav.contact".
Proof.
  split; [|split].
  - apply (proj1 (resolve_order scenario "en" "hero.title")). reflexivity.
  - apply (proj1 (proj2 (resolve_order scenario "ar" "hero.title")));
      reflexivity.
  - apply (proj1 (proj2 (proj2 (resolve_order scenario "ar" "nav.contact"))));
      reflexivity.
Defined.

(** A key that no bundle has comes back verbatim, whatever the locale. *)
Lemma resolve_absent (c : Catalog) (L k : string) :
  (∀ l, bundleOf c l !! k = None) → resolve c L k = k.
Proof.
  intros Habs. unfold resolve. now rewrite !Habs.
Qed.

End ResolverFacts.

(** *** The locale router *)

Module RouterFacts.
Import I18n I18nFacts Router.

Lemma guarded_some (r : Routing) (o : option string) (l : string) :
  (x ← o; if includes (locales r) x then Some x else None) = Some l
  ↔ o = Some l ∧ l ∈ locales r.
Proof.
  destruct o as [x|]; simpl.
  - destruct (includes (locales r) x) eqn:E.
    + split.
      * intros [= ->]. split; [reflexivity | now apply includes_true].
      * intros [[= ->] _]. reflexivity.
    + split; [discriminate|].
      intros [[= ->] Hin]. apply includes_true in Hin. congruence.
  - split; [discriminate | intros [[=] _]].
Qed.

Lemma guarded_none (r : Routing) (o : option string) :
  (x ← o; if includes (locales r) x then Some x else None) = None
  ↔ o = None ∨ ∃ x, o = Some x ∧ x ∉ locales r.
Proof.
  destruct o as [x|]; simpl.
  - destruct (includes (locales r) x) eqn:E.
    + split; [discriminate|].
      intros [[=] | (x' & [= ->] & Hout)].
      apply includes_false in Hout. congruence.
    + split; [|reflexivity].
      intros _. right. exists x. split; [reflexivity|].
      now apply includes_false.
  - split; [now left | reflexivity].
Qed.

Lemma fromUrl_some (r : Routing) (s : Signals) (u : string) :
  fromUrl r s = Some u ↔ urlSegment s = Some u ∧ u ∈ locales r.
Proof. apply guarded_some. Qed.

Lemma fromUrl_none (r : Routing) (s : Signals) :
  fromUrl r s = None ↔
  urlSegment s = None ∨ ∃ u, urlSegment s = Some u ∧ u ∉ locales r.
Proof. apply guarded_none. Qed.

Lemma fromCookie_some (r : Routing) (s : Signals) (c : string) :
  fromCookie r s = Some c ↔ cookie s = Some c ∧ c ∈ locales r.
Proof. apply guarded_some. Qed.

Lemma fromCookie_none (r : Routing) (s : Signals) :
  fromCookie r s = None ↔
  cookie s = None ∨ ∃ c, cookie s = Some c ∧ c ∉ locales r.
Proof. apply guarded_none. Qed.

(** The lookup rule answers with a supported locale. *)
Lemma lookupMatch_supported (supported tags : list string) (h : string) :
  lookupMatch supported tags = Some h → h ∈ supported.
Proof.
  induction tags as [|t ts IH]; simpl; [discriminate|].
  unfold matchTag.
  destruct (includes supported t) eqn:Et.
  - intros [= <-]. now apply includes_true.
  - destruct (includes supported (primary t)) eqn:Ep.
    + intros [= <-]. now apply includes_true.
    + exact IH.
Qed.

(** With a supported default and a matcher that answers within the
    supported set, the active locale is always a supported one. *)
Lemma resolveLocale_supported (bestMatch : Matcher) (r : Routing)
    (s : Signals) :
  defaultLocale r ∈ locales r →
  (∀ tags h, bestMatch (locales r) tags = Some h → h ∈ locales r) →
  resolveLocale bestMatch r s ∈ locales r.
Proof.
  intros Hd Hm. unfold resolveLocale.
  destruct (fromUrl r s) as [u|] eqn:Eu.
  { now apply fromUrl_some in Eu as [_ Hu]. }
  destruct (fromCookie r s) as [c|] eqn:Ec.
  { now apply fromCookie_some in Ec as [_ Hc]. }
  destruct (bestMatch (locales r) (acceptLanguage s)) as [h|] eqn:Eh.
  { now apply Hm in Eh. }
  exact Hd.
Qed.



Example resolveLocale_url :
  resolveLocale lookupMatch routing (mkSignals (Some "en") (Some "ar") ["ar"])
  = "en".
Proof. reflexivity. Qed.

Example resolveLocale_header :
  resolveLocale lookupMatch routing
    (mkSignals None (Some "de") ["fr"; "ar-EG"; "en"])
  = "ar".
Proof. reflexivity. Qed.

Example resolveLocale_default :
  resolveLocale lookupMatch routing (mkSignals None None ["fr"]) = "en".
Proof. reflexivity. Qed.

(** A first segment that names no supported locale is no locale signal for
    the router: detection goes on with the cookie. *)
Example resolveLocale_other_segment :
  resolveLocale lookupMatch routing (mkSignals (Some "fr") (Some "ar") ["en"])
  = "ar".
Proof. reflexivity. Qed.

End RouterFacts.

(** *** Locale-aware paths *)

Module NavigationFacts.
Import Navigation LocalizedLinkModule LocalizedLinkFacts.

Lemma append_assoc (a b c : string) : (a +:+ b) +:+ c = a +:+ (b +:+ c).
Proof.
  induction a as [|x a IH]; [reflexivity|].
  change (String x ((a +:+ b) +:+ c) = String x (a +:+ (b +:+ c))).
  now rewrite IH.
Qed.

Lemma prefix_append (a b : string) : String.prefix a (a +:+ b) = true.
Proof.
  induction a as [|x a IH].
  - now destruct b.
  - change (String.prefix (String x a) (String x (a +:+ b)) = true). simpl.
    destruct (Ascii.ascii_dec x x); [exact IH | congruence].
Qed.

Lemma prefix_split (a p : string) :
  String.prefix a p = true → ∃ rest, p = a +:+ rest.
Proof.
  revert p. induction a as [|x a IH]; intros p; simpl.
  - intros _. now exists p.
  - destruct p as [|y p]; simpl; [discriminate|].
    destruct (Ascii.ascii_dec x y) as [->|]; [|discriminate].
    intros Hp. destruct (IH p Hp) as [rest ->]. exists rest. reflexivity.
Qed.

(** A rooted path behind the locale segment has the locale prefix. *)
Lemma hasLocalePrefix_segment (L p : string) :
  String.prefix "/" p = true → hasLocalePrefix L (segment L +:+ p) = true.
Proof.
  intros Hp. destruct (prefix_split "/" p Hp) as [rest ->].
  unfold hasLocalePrefix. apply orb_true_iff. right.
  rewrite <- append_assoc. apply prefix_append.
Qed.

Lemma localize_kept (L p : string) :
  hasLocalePrefix L p = true → localize L p = p.
Proof.
  intros Hl. unfold localize. rewrite Hl. now destruct (String.prefix "/" p).
Qed.

Lemma localize_twice (L p : string) :
  localize L (localize L p) = localize L p.
Proof.
  unfold localize at 2 3.
  destruct (String.prefix "/" p) eqn:Hp; simpl.
  - destruct (hasLocalePrefix L p) eqn:Hl.
    + now apply localize_kept.
    + apply localize_kept. now apply hasLocalePrefix_segment.
  - unfold localize. now rewrite Hp.
Qed.

Lemma localize_not_doubling (L p : string) :
  doubled L (localize L p) → doubled L p.
Proof.
  unfold localize.
  destruct (String.prefix "/" p) eqn:Hp; simpl; [|trivial].
  destruct (hasLocalePrefix L p) eqn:Hl; [trivial|].
  intros (rest & E & Hrest).
  apply (inj (String.app (segment L))) in E. subst rest. congruence.
Qed.

(** C4: link generation is idempotent.  A path that already has the
    locale's segment in front is returned as it is; generating the link
    again for the path just produced gives the same path; no doubled
    locale prefix appears that the given path did not have; and the same
    holds through [LocalizedLink], whose [href] and [locale] props reach
    the navigation [Link] unchanged. *)
Theorem localize_idempotent (L p : string) :
  (hasLocalePrefix L p = true → localize L p = p)
  ∧ localize L (localize L p) = localize L p
  ∧ (doubled L (localize L p) → doubled L p)
  ∧ ∀ active,
      render (Link active)
        (LocalizedLink {[ "href" := p; "locale" := L ]})
      = Some (localize L p)
      ∧ render (Link active)
          (LocalizedLink {[ "href" := localize L p; "locale" := L ]})
        = Some (localize L p).
Proof.
  split; [apply localize_kept|].
  split; [apply localize_twice|].
  split; [apply localize_not_doubling|].
  intros active.
  assert (Hlink : ∀ q, render (Link active)
                         (LocalizedLink {[ "href" := q; "locale" := L ]})
                       = Some (localize L q)).
  { intros q. rewrite render_LocalizedLink.
    unfold Link. rewrite lookup_insert_eq. simpl.
    rewrite lookup_insert_ne by discriminate.
    now rewrite lookup_singleton_eq. }
  split; [apply Hlink|]. rewrite Hlink. now rewrite localize_twice.
Qed.

(** The link for ["ar"] from [/ar/about] is [/ar/about]. *)
Lemma localize_ar_about :
  localize "ar" "/ar/about" = "/ar/about"
  ∧ localize "ar" (localize "ar" "/about") = "/ar/about"
  ∧ ¬ doubled "ar" (localize "ar" "/ar/about").
Proof.
  destruct (localize_idempotent "ar" "/ar/about") as (Hkept & _ & Hnd & _).
  split; [apply Hkept; reflexivity|].
  split; [reflexivity|].
  intros Hd. apply Hnd in Hd. destruct Hd as (rest & E & Hrest).
  change "/ar/about" with (segment "ar" +:+ "/about") in E.
  apply (inj (String.app (segment "ar"))) in E. subst rest.
  discriminate Hrest.
Defined.

Example localize_about : localize "ar" "/about" = "/ar/about".
Proof. reflexivity. Qed.

Example localize_other_locale : localize "ar" "/en/about" = "/ar/en/about".
Proof. reflexivity. Qed.

Example localize_malformed : localize "ar" "about" = "about".
Proof. reflexivity. Qed.

End NavigationFacts.

(** *** More on the locale layout: which requests render *)

Module LayoutMore.
Import I18n Next Layout I18nFacts NextFacts LayoutFacts.

Lemma includes_ext (xs ys : list string) (x : string) :
  (x ∈ xs ↔ x ∈ ys) → includes xs x = includes ys x.
Proof.
  intros Hiff. destruct (includes ys x) eqn:E.
  - apply includes_true, Hiff, includes_true, E.
  - apply includes_false. intros Hin. apply Hiff, includes_true in Hin.
    congruence.
Qed.

(** The layout looks at the configuration through the membership test
    alone. *)
Lemma LocaleLayout_by_includes `{NextIntl} (r r' : Routing)
    (children : ReactNode) (p : Params) (st : Request) :
  includes (locales r) (locale p) = includes (locales r') (locale p) →
  LocaleLayout r children p st = LocaleLayout r' children p st.
Proof.
  destruct p as [l]; simpl. intros E.
  destruct (includes (locales r') l) eqn:E'.
  - now rewrite !LocaleLayout_supported.
  - now rewrite !LocaleLayout_unsupported.
Qed.

Lemma LocaleLayout_returned_iff `{NextIntl} (r : Routing)
    (children : ReactNode) (p : Params) (st : Request) :
  (∃ node st', LocaleLayout r children p st = (Returned node, st'))
  ↔ includes (locales r) (locale p) = true.
Proof.
  destruct p as [l]; simpl.
  destruct (includes (locales r) l) eqn:E.
  - split; [reflexivity|]. intros _. eexists _, _.
    now apply LocaleLayout_supported.
  - rewrite (LocaleLayout_unsupported r children l st E).
    split; [intros (node & st' & [=]) | discriminate].
Qed.

(** X1: whatever [LocaleLayout] returns was rendered for a supported
    locale: the locale of the params is in [routing.locales], it is the
    request locale afterwards, and the root element is [html] with this
    locale as [lang] and its direction as [dir]. *)
Theorem LocaleLayout_returned_inv `{NextIntl} (r : Routing)
    (children : ReactNode) (p : Params) (st st' : Request) (node : ReactNode) :
  LocaleLayout r children p st = (Returned node, st') →
  locale p ∈ locales r
  ∧ st' = mkRequest (Some (locale p))
  ∧ tagOf node = Some "html"
  ∧ attr "lang" node = Some (locale p)
  ∧ attr "dir" node = Some (dirOf (locale p)).
Proof.
  destruct p as [l]; simpl. intros E.
  destruct (includes (locales r) l) eqn:Hin.
  - rewrite (LocaleLayout_supported r children l st Hin) in E.
    injection E as <- <-. split; [now apply includes_true|].
    repeat split.
  - rewrite (LocaleLayout_unsupported r children l st Hin) in E.
    discriminate E.
Qed.

Lemma LocaleLayout_returned_inv_en :
  ∃ node st',
    LocaleLayout (H := Resolver.intlOf Resolver.scenario) I18n.routing
      (Text "home") (mkParams "en") emptyRequest = (Returned node, st')
    ∧ ("en" ∈ locales I18n.routing)
    ∧ st' = mkRequest (Some "en")
    ∧ attr "lang" node = Some "en"
    ∧ attr "dir" node = Some "ltr".
Proof.
  eexists _, _. split; [reflexivity|].
  destruct (LocaleLayout_returned_inv (H := Resolver.intlOf Resolver.scenario)
              I18n.routing (Text "home") (mkParams "en") emptyRequest _ _
              eq_refl) as (Hin & Hst & _ & Hlang & Hdir).
  repeat split; assumption.
Defined.

(** X2: the statically generated routes are exactly the routes the layout
    renders: [LocaleLayout] returns a tree for a params object if and only
    if [generateStaticParams] lists it. *)
Theorem LocaleLayout_renders_iff_static `{NextIntl} (r : Routing)
    (children : ReactNode) (p : Params) (st : Request) :
  (∃ node st', LocaleLayout r children p st = (Returned node, st'))
  ↔ p ∈ generateStaticParams r.
Proof.
  rewrite LocaleLayout_returned_iff, includes_true.
  unfold generateStaticParams. destruct p as [l]; simpl. split.
  - intros Hin. apply list_elem_of_fmap. now exists l.
  - intros Hin. apply list_elem_of_fmap in Hin as (l' & [= ->] & Hl').
    exact Hl'.
Qed.

(** X3: adding locales to the configuration keeps every page that was
    rendered: when the locales of [r] are among those of [r'], a tree
    returned under [r] is returned unchanged under [r']. *)
Theorem LocaleLayout_monotone `{NextIntl} (r r' : Routing)
    (children : ReactNode) (p : Params) (st st' : Request) (node : ReactNode) :
  (∀ l, l ∈ locales r → l ∈ locales r') →
  LocaleLayout r children p st = (Returned node, st') →
  LocaleLayout r' children p st = (Returned node, st').
Proof.
  intros Hsub E. rewrite <- E. symmetry. apply LocaleLayout_by_includes.
  assert (Hin : includes (locales r) (locale p) = true).
  { apply (LocaleLayout_returned_iff r children p st). eauto. }
  rewrite Hin. symmetry. apply includes_true, Hsub, includes_true, Hin.
Qed.

Lemma LocaleLayout_monotone_fr :
  ∃ node st',
    LocaleLayout (H := Resolver.intlOf Resolver.scenario) I18n.routing
      (Text "home") (mkParams "ar") emptyRequest = (Returned node, st')
    ∧ LocaleLayout (H := Resolver.intlOf Resolver.scenario)
        I18n.routing_with_fr (Text "home") (mkParams "ar") emptyRequest
      = (Returned node, st').
Proof.
  eexists _, _. split; [reflexivity|].
  apply (LocaleLayout_monotone (H := Resolver.intlOf Resolver.scenario)
           I18n.routing I18n.routing_with_fr);
    [|reflexivity].
  intros l. unfold I18n.routing, I18n.routing_with_fr. cbn [locales].
  rewrite !elem_of_cons. tauto.
Defined.

(** X4: the layout depends on the configuration through the set of its
    locales only: the order of [locales], repeated entries and
    [defaultLocale] change nothing, for any request. *)
Theorem LocaleLayout_same_set `{NextIntl} (r r' : Routing)
    (children : ReactNode) (p : Params) (st : Request) :
  (∀ l, l ∈ locales r ↔ l ∈ locales r') →
  LocaleLayout r children p st = LocaleLayout r' children p st.
Proof.
  intros Hset. apply LocaleLayout_by_includes, includes_ext, Hset.
Qed.

Lemma LocaleLayout_same_set_guide :
  LocaleLayout (H := Resolver.intlOf Resolver.scenario) I18n.routing
    (Text "home") (mkParams "ar") emptyRequest
  = LocaleLayout (H := Resolver.intlOf Resolver.scenario)
      (defineRouting ["ar"; "en"; "ar"] "ar")
      (Text "home") (mkParams "ar") emptyRequest.
Proof.
  apply (LocaleLayout_same_set (H := Resolver.intlOf Resolver.scenario)).
  intros l. unfold I18n.routing. cbn [locales].
  rewrite !elem_of_cons, !elem_of_nil. tauto.
Defined.

(** X5: a request locale left in the store by an earlier render is never
    read: [HomePage] gives the same result from every store, and so does
    [LocaleLayout] for a supported locale, both with the locale of the
    params as the request locale afterwards. *)
Theorem stale_request_locale_ignored `{NextIntl} (p : Params)
    (st1 st2 : Request) :
  HomePage p st1 = HomePage p st2
  ∧ snd (HomePage p st1) = mkRequest (Some (locale p))
  ∧ ∀ (r : Routing) (children : ReactNode),
      locale p ∈ locales r →
      LocaleLayout r children p st1 = LocaleLayout r children p st2
      ∧ snd (LocaleLayout r children p st1) = mkRequest (Some (locale p)).
Proof.
  split; [reflexivity|]. split; [reflexivity|].
  intros r children Hin. apply includes_true in Hin.
  destruct p as [l]; simpl in *.
  rewrite !(LocaleLayout_supported r children l _ Hin). split; reflexivity.
Qed.

Lemma stale_request_locale_ignored_ar :
  LocaleLayout (H := Resolver.intlOf Resolver.scenario) I18n.routing
    (Text "home") (mkParams "ar") (mkRequest (Some "en"))
  = LocaleLayout (H := Resolver.intlOf Resolver.scenario) I18n.routing
      (Text "home") (mkParams "ar") emptyRequest.
Proof.
  apply (proj2 (proj2 (stale_request_locale_ignored
                         (H := Resolver.intlOf Resolver.scenario)
                         (mkParams "ar") (mkRequest (Some "en")) emptyRequest))).
  apply includes_true. reflexivity.
Defined.

(** X6: [generateStaticParams] repeats a route exactly when the
    configuration repeats a locale: its result has no duplicates if and
    only if [routing.locales] has none; and it is empty only for an empty
    list of locales. *)
Theorem generateStaticParams_NoDup (r : Routing) :
  (NoDup (generateStaticParams r) ↔ NoDup (locales r))
  ∧ (generateStaticParams r = [] ↔ locales r = []).
Proof.
  unfold generateStaticParams. split.
  - assert (Hinj : Inj (=) (=) mkParams) by (intros l l' [= ->]; reflexivity).
    apply (NoDup_fmap mkParams).
  - destruct (locales r); simpl; split; congruence.
Qed.

End LayoutMore.

(** *** The request interceptor of the API client *)

Module AxiosInstanceFacts.
Import AxiosInstance.

Lemma truthy_some (v : option string) :
  truthy v = true ↔ ∃ t, v = Some t ∧ t ≠ "".
Proof.
  destruct v as [t|]; simpl.
  - destruct (String.eqb_spec t "") as [->|Hne]; simpl.
    + split; [discriminate | intros (t & [= <-] & Hne); congruence].
    + split; [intros _; now exists t | reflexivity].
  - split; [discriminate | intros (t & [=] & _)].
Qed.

Lemma truthy_none (v : option string) :
  truthy v = false ↔ v = None ∨ v = Some "".
Proof.
  destruct v as [t|]; simpl.
  - destruct (String.eqb_spec t "") as [->|Hne]; simpl.
    + split; [now right | reflexivity].
    + split; [discriminate | intros [[=] | [= ->]]; congruence].
  - split; [now left | reflexivity].
Qed.

Lemma requestInterceptor_token cookies config t :
  cookies !! "token" = Some t → t ≠ "" →
  requestInterceptor cookies config =
    mkConfig (baseURL config) (timeout config)
      (<["Authorization" := "Bearer " +:+ t]> (headers config)).
Proof.
  intros Ht Hne. unfold requestInterceptor. rewrite Ht. simpl.
  now destruct (String.eqb_spec t "").
Qed.

Lemma requestInterceptor_falsy cookies config :
  truthy (cookies !! "token") = false →
  requestInterceptor cookies config = config.
Proof. intros Hf. unfold requestInterceptor. now rewrite Hf. Qed.

(** X7: without a usable token the interceptor changes nothing: when the
    [token] cookie is missing or empty the configuration comes back as it
    went in; no header is added, and an [Authorization] header that was
    already set is neither removed nor replaced. *)
Theorem requestInterceptor_no_token (cookies : gmap string string)
    (config : RequestConfig) :
  cookies !! "token" = None ∨ cookies !! "token" = Some "" →
  requestInterceptor cookies config = config.
Proof.
  intros Hno. now apply requestInterceptor_falsy, truthy_none.
Qed.

Lemma requestInterceptor_no_token_empty :
  requestInterceptor {[ "token" := "" ]}
    (mkConfig None 10000 {[ "Authorization" := "Bearer old" ]})
  = mkConfig None 10000 {[ "Authorization" := "Bearer old" ]}.
Proof.
  apply requestInterceptor_no_token. right. reflexivity.
Defined.

(** X8: with a non-empty [token] cookie the interceptor sets the
    [Authorization] header to ["Bearer "] followed by the token, replacing
    any earlier value, and leaves every other header, the base URL and the
    timeout as they were. *)
Theorem requestInterceptor_sets_bearer (cookies : gmap string string)
    (config : RequestConfig) (t : string) :
  cookies !! "token" = Some t → t ≠ "" →
  headers (requestInterceptor cookies config) !! "Authorization"
    = Some ("Bearer " +:+ t)
  ∧ (∀ k, k ≠ "Authorization" →
          headers (requestInterceptor cookies config) !! k
          = headers config !! k)
  ∧ baseURL (requestInterceptor cookies config) = baseURL config
  ∧ timeout (requestInterceptor cookies config) = timeout config.
Proof.
  intros Ht Hne. rewrite (requestInterceptor_token cookies config t Ht Hne).
  simpl. split; [apply lookup_insert_eq|].
  split; [|split; reflexivity].
  intros k Hk. now apply lookup_insert_ne.
Qed.

Lemma requestInterceptor_sets_bearer_abc :
  headers (requestInterceptor {[ "token" := "abc" ]}
             (mkConfig None 10000 {[ "Authorization" := "Bearer old" ]}))
    !! "Authorization" = Some "Bearer abc".
Proof.
  apply (requestInterceptor_sets_bearer {[ "token" := "abc" ]}
           (mkConfig None 10000 {[ "Authorization" := "Bearer old" ]}) "abc");
    [reflexivity | discriminate].
Defined.

(** X9: how two runs of the interceptor compose on one configuration: the
    later run wins when its cookie jar has a non-empty token, otherwise the
    header of the earlier run stays (a removed cookie does not clear it);
    in particular running the interceptor twice with one jar is the same as
    running it once. *)
Theorem requestInterceptor_twice (c1 c2 : gmap string string)
    (config : RequestConfig) :
  requestInterceptor c2 (requestInterceptor c1 config)
    = (if truthy (c2 !! "token") then requestInterceptor c2 config
       else requestInterceptor c1 config)
  ∧ requestInterceptor c1 (requestInterceptor c1 config)
    = requestInterceptor c1 config.
Proof.
  assert (Hgen : ∀ a b,
            requestInterceptor b (requestInterceptor a config)
            = if truthy (b !! "token") then requestInterceptor b config
              else requestInterceptor a config).
  { intros a b. destruct (truthy (b !! "token")) eqn:Hb.
    - apply truthy_some in Hb as (tb & Hb & Hne).
      rewrite !(requestInterceptor_token b _ tb Hb Hne). simpl.
      destruct (truthy (a !! "token")) eqn:Ha.
      + apply truthy_some in Ha as (ta & Ha & Hnea).
        rewrite (requestInterceptor_token a _ ta Ha Hnea). simpl.
        now rewrite insert_insert_eq.
      + now rewrite (requestInterceptor_falsy a config Ha).
    - now apply requestInterceptor_falsy. }
  split; [apply Hgen|].
  rewrite Hgen. now destruct (truthy (c1 !! "token")).
Qed.

End AxiosInstanceFacts.

(** *** The hero *)

Module UiFacts.
Import Ui.

Lemma or_else_default (a : option string) : or_else a "" = default "" a.
Proof.
  destruct a as [s|]; simpl; [|reflexivity].
  now destruct (String.eqb_spec s "") as [->|].
Qed.

(** X10: the hero has a paragraph exactly for a non-empty subtitle: a [p]
    element is among its children if and only if [subtitle] is a non-empty
    string, and then it is the one paragraph with that string; the heading
    with the title is always the first child. *)
Theorem Hero_subtitle (title : string) (subtitle className : option string) :
  (∀ c kids,
     JsElement "p" c kids ∈ childrenOf (Hero title subtitle className)
     ↔ ∃ s, subtitle = Some s ∧ s ≠ "" ∧ c = "ui-text-xl"
            ∧ kids = [JsString s])
  ∧ childrenOf (Hero title subtitle className) !! 0
    = Some (JsElement "h1" "ui-text-4xl ui-font-bold" [JsString title])
  ∧ length (childrenOf (Hero title subtitle className)) = 2.
Proof.
  split; [|split; reflexivity].
  intros c kids. simpl. rewrite !elem_of_cons, elem_of_nil.
  destruct subtitle as [s|].
  - destruct (String.eqb_spec s "") as [->|Hne].
    + split.
      * intros [[=] | [[=] | []]].
      * intros (s & [= <-] & Hne & _). congruence.
    + split.
      * intros [[=] | [[= -> ->] | []]]. now exists s.
      * intros (s' & [= <-] & _ & -> & ->). right. now left.
  - split.
    + intros [[=] | [[=] | []]].
    + intros (s & [=] & _).
Qed.

(** X11: a missing class and an empty class give the same hero, and the
    class of the root element is ["ui-hero "] followed by the class that was
    passed: with no class it keeps the separating space at its end. *)
Theorem Hero_className (title : string) (subtitle className : option string) :
  classOf (Hero title subtitle className)
    = Some ("ui-hero " +:+ default "" className)
  ∧ Hero title subtitle None = Hero title subtitle (Some "")
  ∧ classOf (Hero title subtitle None) = Some "ui-hero ".
Proof.
  split; [|split; reflexivity].
  unfold Hero, classOf. now rewrite or_else_default.
Qed.

(** X12: the hero of the home page: its class is ["ui-hero "], its heading
    holds the translation of [hero.title], and it has the subtitle
    paragraph exactly when the translation of [hero.subtitle] is not the
    empty string. *)
Theorem HomeHero_shape (t : string → string) :
  classOf (HomeHero t) = Some "ui-hero "
  ∧ childrenOf (HomeHero t) !! 0
    = Some (JsElement "h1" "ui-text-4xl ui-font-bold"
              [JsString (t "hero.title")])
  ∧ (JsElement "p" "ui-text-xl" [JsString (t "hero.subtitle")]
       ∈ childrenOf (HomeHero t)
     ↔ t "hero.subtitle" ≠ "")
  ∧ (t "hero.subtitle" = "" → childrenOf (HomeHero t) !! 1 = Some (JsString "")).
Proof.
  unfold HomeHero. split; [reflexivity|]. split; [reflexivity|].
  simpl. destruct (String.eqb_spec (t "hero.subtitle") "") as [E|Hne].
  - split; [|reflexivity]. rewrite !elem_of_cons, elem_of_nil.
    split; [intros [[=] | [[=] | []]] | congruence].
  - split; [|congruence]. rewrite !elem_of_cons. split; [easy|].
    intros _. right. now left.
Qed.

End UiFacts.
